(** * The views registry of [vs/workbench/common/views.ts]

    A shallow embedding of [ViewLocation] and of the [ViewsRegistry] singleton:
    the two maps it owns, the three emitters it fires, and the exception that
    [registerViews] throws.  Methods that mutate [this] are computations in a
    state-and-exception monad over the registry object; the two getters are
    plain functions of the registry. *)

From stdpp Require Import base option list strings countable gmap fin_maps.
From Stdlib Require Import ZArith.

Local Open Scope string_scope.
Local Open Scope Z_scope.
Local Open Scope list_scope.

(** ** [class ViewLocation] *)

Module ViewLocation.

(** An instance is a JavaScript object: [obj] is its identity (two objects
    built by [new ViewLocation(s)] with the same [s] are still two objects),
    [_id] is the private field set by the constructor. *)
Record t : Type := new { obj : positive; _id : string }.

Definition id (this : t) : string := _id this.

Definition Explorer : t := new 1 "explorer".
Definition Debug : t := new 2 "debug".
Definition Extensions : t := new 3 "extensions".

(** [switch (value)] compares with [===]; falling out of the switch returns
    [void 0]. *)
Definition getContributedViewLocation (value : string) : option t :=
  if bool_decide (value = id Explorer) then Some Explorer
  else if bool_decide (value = id Debug) then Some Debug
  else None.

#[global] Instance eq_dec : EqDecision t.
Proof. solve_decision. Defined.

#[global] Instance countable : Countable t.
Proof.
  apply (inj_countable' (λ l, (obj l, _id l)) (λ p, new p.1 p.2)).
  by intros [].
Defined.

End ViewLocation.

(** [Array.prototype.indexOf] on an array of strings: the first index whose
    element is [===] to [x], and [-1] when there is none. *)
Fixpoint indexOf_from (k : Z) (l : list string) (x : string) : Z :=
  match l with
  | [] => -1
  | y :: l => if bool_decide (y = x) then k else indexOf_from (k + 1) l x
  end.

Definition indexOf (l : list string) (x : string) : Z := indexOf_from 0 l x.

Section ViewsRegistry.

(** Types the registry stores and never inspects: the [any] of [ctor], the
    context-key expressions of [when], JavaScript numbers, and the objects
    implementing [ITreeViewDataProvider]. *)
Context {any ContextKeyExpr number ITreeViewDataProvider : Type}.

(** [interface IViewDescriptor]; a field declared with [?] is optional. *)
Record IViewDescriptor : Type := {
  id : string;
  name : string;
  location : ViewLocation.t;
  ctor : any;
  when : option ContextKeyExpr;
  order : option number;
  weight : option number;
  collapsed : option bool;
  canToggleVisibility : option bool
}.

(** Modelled from the spec: [Emitter] (vs/base/common/event) is not among the
    sources at hand.  Per the spec a notification is a synchronous
    point-in-time broadcast; a [Fired] is one such broadcast, named after the
    event it is delivered on and carrying the payload given to [fire].  What
    the listeners do on delivery is theirs and no part of the call that
    fires. *)
Inductive Fired : Type :=
| onViewsRegistered (views : list IViewDescriptor)
| onViewsDeregistered (views : list IViewDescriptor)
| onTreeViewDataProviderRegistered (id : string).

(** The anonymous class behind [ViewsRegistry]: its two maps, and in [fired]
    what its three emitters have broadcast so far, oldest first. *)
Record ViewsRegistry : Type := {
  _views : gmap ViewLocation.t (list IViewDescriptor);
  _treeViewDataPoviders : gmap string ITreeViewDataProvider;
  fired : list Fired
}.

Definition initial : ViewsRegistry :=
  {| _views := ∅; _treeViewDataPoviders := ∅; fired := [] |}.

(** Modelled from the spec: [localize] (vs/nls) is not among the sources at
    hand; the thrown [Error] keeps the message key and its two arguments, the
    id of the view and the id of its location. *)
Inductive Error : Type :=
| duplicateId (id : string) (location_id : string).

(** ** Methods as computations on [this] *)

(** A call either returns or throws; in both cases the registry keeps the
    mutations made so far. *)
Definition M (A : Type) : Type := ViewsRegistry → (Error + A) * ViewsRegistry.

#[global] Instance M_ret : MRet M := λ A a this, (inr a, this).
#[global] Instance M_bind : MBind M := λ A B f m this,
  match m this with
  | (inr a, this') => f a this'
  | (inl e, this') => (inl e, this')
  end.

Definition throw {A} (e : Error) : M A := λ this, (inl e, this).
Definition gets {A} (f : ViewsRegistry → A) : M A := λ this, (inr (f this), this).
Definition modify (f : ViewsRegistry → ViewsRegistry) : M unit :=
  λ this, (inr tt, f this).

Definition upd_views
    (f : gmap ViewLocation.t (list IViewDescriptor) →
         gmap ViewLocation.t (list IViewDescriptor))
    (this : ViewsRegistry) : ViewsRegistry :=
  {| _views := f (_views this);
     _treeViewDataPoviders := _treeViewDataPoviders this;
     fired := fired this |}.

Definition upd_treeViewDataPoviders
    (f : gmap string ITreeViewDataProvider → gmap string ITreeViewDataProvider)
    (this : ViewsRegistry) : ViewsRegistry :=
  {| _views := _views this;
     _treeViewDataPoviders := f (_treeViewDataPoviders this);
     fired := fired this |}.

(** Modelled from the spec: [Emitter.fire], recorded at the end of [fired]. *)
Definition fire (e : Fired) : M unit :=
  modify (λ this,
    {| _views := _views this;
       _treeViewDataPoviders := _treeViewDataPoviders this;
       fired := fired this ++ [e] |}).

(** [for (const x of l) body] *)
Fixpoint for_of {A} (l : list A) (body : A → M unit) : M unit :=
  match l with
  | [] => mret tt
  | x :: l => body x ;; for_of l body
  end.

(** [views.some(v => v.id === id')] *)
Definition some_id (id' : string) (views : list IViewDescriptor) : bool :=
  existsb (λ v, bool_decide (id v = id')) views.

(** The body of the loop of [registerViews].  [views] is the array stored
    under the location (a fresh one is stored first when there is none), so
    [views.push] changes the array held by the map: [alter]. *)
Definition registerView (viewDescriptor : IViewDescriptor) : M unit :=
  views ← gets (λ this, _views this !! location viewDescriptor);
  views ← match views with
          | Some views => mret views
          | None =>
              modify (upd_views (<[location viewDescriptor := []]>)) ;;
              mret []
          end;
  if some_id (id viewDescriptor) views
  then throw (duplicateId (id viewDescriptor)
                          (ViewLocation.id (location viewDescriptor)))
  else modify (upd_views (alter (λ views, views ++ [viewDescriptor])
                                (location viewDescriptor))).

Definition registerViews (viewDescriptors : list IViewDescriptor) : M unit :=
  if bool_decide (length viewDescriptors ≠ 0%nat) then
    for_of viewDescriptors registerView ;;
    fire (onViewsRegistered viewDescriptors)
  else mret tt.

Definition deregisterViews (ids : list string) (location : ViewLocation.t)
    : M unit :=
  views ← gets (λ this, _views this !! location);
  match views with
  | None => mret tt
  | Some views =>
      let viewsToDeregister :=
        filter (λ view, indexOf ids (id view) ≠ -1) views in
      (if bool_decide (length viewsToDeregister ≠ 0%nat) then
         modify (upd_views
           (<[location := filter (λ view, indexOf ids (id view) = -1) views]>))
       else mret tt) ;;
      fire (onViewsDeregistered viewsToDeregister)
  end.

(** [this._views.forEach(views => registered = registered || views.some(...))] *)
Definition isDataProviderRegistered (id' : string) : M bool :=
  gets (λ this,
    map_fold (λ _ views registered, registered || some_id id' views)
             false (_views this)).

(** The branch guarded by [!this.isDataProviderRegistered(id)] holds only a
    TODO comment. *)
Definition registerTreeViewDataProvider
    (id' : string) (factory : ITreeViewDataProvider) : M unit :=
  registered ← isDataProviderRegistered id';
  (if negb registered then mret tt else mret tt) ;;
  modify (upd_treeViewDataPoviders (<[id' := factory]>)) ;;
  fire (onTreeViewDataProviderRegistered id').

Definition deregisterTreeViewDataProviders : M unit :=
  modify (upd_treeViewDataPoviders (λ _, ∅)).

(** [this._views.get(loc) || []]: an array is never falsy. *)
Definition getViews (this : ViewsRegistry) (loc : ViewLocation.t)
    : list IViewDescriptor :=
  default [] (_views this !! loc).

Definition getTreeViewDataProvider (this : ViewsRegistry) (id' : string)
    : option ITreeViewDataProvider :=
  _treeViewDataPoviders this !! id'.

(** ** Vocabulary of the statements *)

(** A descriptor given by its [ctor], [id] and [location]; its name is its id
    and no optional field is set. *)
Definition view (ctor' : any) (id' : string) (location' : ViewLocation.t)
    : IViewDescriptor :=
  {| id := id'; name := id'; location := location'; ctor := ctor';
     when := None; order := None; weight := None;
     collapsed := None; canToggleVisibility := None |}.

(** What [registerViews] compares: the location a view goes to and its id. *)
Definition key (v : IViewDescriptor) : ViewLocation.t * string :=
  (location v, id v).

(** [v] finds its id taken when its turn comes: by a view of the registry,
    or by one of the views [earlier] in the same batch. *)
Definition collides (this : ViewsRegistry) (earlier : list IViewDescriptor)
    (v : IViewDescriptor) : Prop :=
  id v ∈ id <$> getViews this (location v) ∨ key v ∈ key <$> earlier.

#[global] Instance collides_dec this earlier v :
  Decision (collides this earlier v).
Proof. unfold collides. apply _. Defined.

(** No view of the batch collides, neither with the registry nor with
    another view of the batch. *)
Definition fresh_batch (this : ViewsRegistry) (batch : list IViewDescriptor)
    : Prop :=
  NoDup (key <$> batch) ∧
  ∀ v, v ∈ batch → id v ∉ id <$> getViews this (location v).

#[global] Instance fresh_batch_dec this batch : Decision (fresh_batch this batch).
Proof.
  refine (cast_if (decide (NoDup (key <$> batch) ∧
    Forall (λ v, id v ∉ id <$> getViews this (location v)) batch)));
    unfold fresh_batch; rewrite <-Forall_forall; done.
Defined.

(** Within each location the ids are pairwise distinct. *)
Definition unique_ids (this : ViewsRegistry) : Prop :=
  ∀ loc views, _views this !! loc = Some views → NoDup (id <$> views).

(** The calls a client can make on the registry that change it. *)
Inductive Call : Type :=
| call_registerViews (viewDescriptors : list IViewDescriptor)
| call_deregisterViews (ids : list string) (location : ViewLocation.t)
| call_registerTreeViewDataProvider (id : string) (factory : ITreeViewDataProvider)
| call_deregisterTreeViewDataProviders.

Definition call (c : Call) : M unit :=
  match c with
  | call_registerViews viewDescriptors => registerViews viewDescriptors
  | call_deregisterViews ids location => deregisterViews ids location
  | call_registerTreeViewDataProvider id' factory =>
      registerTreeViewDataProvider id' factory
  | call_deregisterTreeViewDataProviders => deregisterTreeViewDataProviders
  end.

(** The registry after a series of calls; a call that throws leaves the
    registry as it was when the exception left the method. *)
Definition after (calls : list Call) (this : ViewsRegistry) : ViewsRegistry :=
  foldl (λ this c, (call c this).2) this calls.

(** Runs the binds and the primitive computations of [M] in the goal. *)
Ltac run_M := unfold mbind, M_bind, gets, modify, mret, M_ret, throw; simpl.

(** ** Auxiliary facts *)

Lemma indexOf_from_range k l x :
  indexOf_from k l x = -1 ∨ k ≤ indexOf_from k l x.
Proof.
  revert k. induction l as [|y l IH]; intros k; simpl; [by left|].
  case_bool_decide; [right; lia|].
  destruct (IH (k + 1)); [by left | right; lia].
Qed.

Lemma indexOf_from_elem_of k l x :
  0 ≤ k → indexOf_from k l x ≠ -1 ↔ x ∈ l.
Proof.
  revert k. induction l as [|y l IH]; intros k Hk; simpl.
  - rewrite elem_of_nil. naive_solver.
  - rewrite elem_of_cons. case_bool_decide as Hy.
    + split; [auto | lia].
    + rewrite IH by lia. split; [by right | by intros [->|?]].
Qed.

Lemma indexOf_elem_of l x : indexOf l x ≠ -1 ↔ x ∈ l.
Proof. by apply indexOf_from_elem_of. Qed.

Lemma indexOf_not_elem_of l x : indexOf l x = -1 ↔ x ∉ l.
Proof.
  rewrite <-indexOf_elem_of. destruct (decide (indexOf l x = -1)); naive_solver.
Qed.

Lemma some_id_true id' views : some_id id' views = true ↔ id' ∈ id <$> views.
Proof.
  unfold some_id. rewrite existsb_exists, list_elem_of_fmap.
  split.
  - intros (v & Hv%list_elem_of_In & Hid%bool_decide_eq_true). eauto.
  - intros (v & -> & Hv). exists v. rewrite bool_decide_eq_true.
    by rewrite <-list_elem_of_In.
Qed.

Lemma some_id_false id' views : some_id id' views = false ↔ id' ∉ id <$> views.
Proof. rewrite <-some_id_true. by destruct (some_id id' views). Qed.

Lemma getViews_upd_insert this loc loc' views :
  getViews (upd_views (<[loc := views]>) this) loc'
  = if decide (loc = loc') then views else getViews this loc'.
Proof.
  unfold getViews; simpl. rewrite lookup_insert. by case_decide.
Qed.

(** One turn of the loop on a view whose id is free: the view goes to the
    end of the sequence of its location. *)
Lemma registerView_free v this :
  id v ∉ id <$> getViews this (location v) →
  registerView v this
  = (inr tt,
     upd_views (<[location v := getViews this (location v) ++ [v]]>) this).
Proof.
  intros Hfree. unfold registerView, getViews in *.
  run_M.
  destruct (_views this !! location v) as [views|] eqn:Hget; simpl in *.
  - apply some_id_false in Hfree. rewrite Hfree.
    f_equal. unfold upd_views. f_equal.
    apply map_eq; intros loc. rewrite lookup_alter, lookup_insert.
    case_decide; subst; by rewrite ?Hget.
  - f_equal. unfold upd_views; simpl. f_equal.
    by rewrite alter_insert_eq.
Qed.

(** One turn of the loop on a view whose id is taken: the exception, and
    nothing has changed. *)
Lemma registerView_taken v this :
  id v ∈ id <$> getViews this (location v) →
  registerView v this
  = (inl (duplicateId (id v) (ViewLocation.id (location v))), this).
Proof.
  intros Htaken. unfold registerView, getViews in *.
  run_M.
  destruct (_views this !! location v) as [views|] eqn:Hget; simpl in *.
  - apply some_id_true in Htaken. by rewrite Htaken.
  - by apply elem_of_nil in Htaken.
Qed.

Lemma for_of_app {A} (l1 l2 : list A) body this :
  for_of (l1 ++ l2) body this
  = match for_of l1 body this with
    | (inr _, this') => for_of l2 body this'
    | (inl e, this') => (inl e, this')
    end.
Proof.
  revert this. induction l1 as [|x l1 IH]; intros this; simpl; [done|].
  unfold mbind, M_bind. destruct (body x this) as [[e|[]] this']; [done|].
  apply IH.
Qed.

Lemma fresh_batch_nil this : fresh_batch this [].
Proof. split; [constructor | by intros v ?%elem_of_nil]. Qed.

Lemma fresh_batch_snoc this batch v :
  fresh_batch this (batch ++ [v]) ↔ fresh_batch this batch ∧ ¬ collides this batch v.
Proof.
  unfold fresh_batch, collides. rewrite fmap_app, NoDup_app. simpl. split.
  - intros ((Hnd & Hdisj & _) & Hfree). repeat split; [done|..].
    + intros w Hw. apply Hfree, elem_of_app. by left.
    + intros [Hin|Hin].
      * eapply Hfree; [|done]. apply elem_of_app. right. by left.
      * apply (Hdisj _ Hin). by left.
  - intros ((Hnd & Hfree) & Hnot). repeat split; [done|..].
    + intros k Hk ->%list_elem_of_singleton. tauto.
    + apply NoDup_singleton.
    + intros w [Hw| ->%list_elem_of_singleton]%elem_of_app; [by apply Hfree|].
      tauto.
Qed.

(** A batch is fresh, or it has a first view that collides. *)
Lemma first_collision this batch :
  fresh_batch this batch ∨
  ∃ pre v post,
    batch = pre ++ v :: post ∧ fresh_batch this pre ∧ collides this pre v.
Proof.
  induction batch as [|v batch IH] using rev_ind.
  - left. apply fresh_batch_nil.
  - destruct IH as [Hfresh|(pre & w & post & -> & Hpre & Hw)].
    + destruct (decide (collides this batch v)) as [Hv|Hv].
      * right. by exists batch, v, [].
      * left. by apply fresh_batch_snoc.
    + right. exists pre, w, (post ++ [v]). by rewrite <-app_assoc.
Qed.

Lemma collides_not_fresh this earlier v later :
  collides this earlier v → ¬ fresh_batch this (earlier ++ v :: later).
Proof.
  intros Hv [Hnd Hfree]. destruct Hv as [Hv|Hv].
  - eapply Hfree; [|done]. apply elem_of_app. right. by left.
  - rewrite fmap_app, NoDup_app in Hnd. destruct Hnd as (_ & Hdisj & _).
    apply (Hdisj _ Hv). by left.
Qed.

(** The loop of [registerViews] over a fresh batch runs to its end and
    appends every view to the sequence of its location. *)
Lemma for_of_registerView_fresh batch this :
  fresh_batch this batch →
  ∃ this',
    for_of batch registerView this = (inr tt, this') ∧
    (∀ loc, getViews this' loc
            = getViews this loc ++ filter (λ v, location v = loc) batch) ∧
    _treeViewDataPoviders this' = _treeViewDataPoviders this ∧
    fired this' = fired this.
Proof.
  revert this. induction batch as [|v batch IH]; intros this [Hnd Hfree].
  - exists this. repeat split; [|done..].
    intros loc. by rewrite filter_nil, app_nil_r.
  - rewrite fmap_cons in Hnd. apply NoDup_cons in Hnd as [Hv Hnd].
    assert (id v ∉ id <$> getViews this (location v)) as Hvfree
      by (apply Hfree; by left).
    set (this1 :=
      upd_views (<[location v := getViews this (location v) ++ [v]]>) this).
    destruct (IH this1) as (this' & Hrun & Hviews & Hprov & Hfired).
    { split; [done|]. intros w Hw.
      unfold this1. rewrite getViews_upd_insert. case_decide as Hloc.
      - rewrite fmap_app, elem_of_app. simpl.
        intros [Hin|Hid%list_elem_of_singleton].
        + eapply Hfree; [by right|]. by rewrite <-Hloc.
        + apply Hv. apply list_elem_of_fmap. exists w. split; [|done].
          unfold key. by rewrite Hloc, Hid.
      - apply Hfree. by right. }
    exists this'. split; [|split; [|done]].
    + simpl. unfold mbind, M_bind. by rewrite registerView_free.
    + intros loc. rewrite Hviews. unfold this1.
      rewrite getViews_upd_insert, filter_cons.
      case_decide as Hloc; [|done]. subst loc. by rewrite <-app_assoc.
Qed.

(** The loop of [registerViews] over a batch whose first collision is at
    [v]: it throws at [v], with the views before [v] appended and nothing
    else. *)
Lemma for_of_registerView_taken pre v post this :
  fresh_batch this pre → collides this pre v →
  ∃ this',
    for_of (pre ++ v :: post) registerView this
    = (inl (duplicateId (id v) (ViewLocation.id (location v))), this') ∧
    (∀ loc, getViews this' loc
            = getViews this loc ++ filter (λ v, location v = loc) pre) ∧
    _treeViewDataPoviders this' = _treeViewDataPoviders this ∧
    fired this' = fired this.
Proof.
  intros Hpre Hv.
  destruct (for_of_registerView_fresh pre this Hpre)
    as (this' & Hrun & Hviews & Hprov & Hfired).
  exists this'. split; [|done].
  rewrite for_of_app, Hrun. simpl. unfold mbind, M_bind.
  rewrite registerView_taken; [done|].
  rewrite Hviews, fmap_app, elem_of_app.
  destruct Hv as [Hv|Hv]; [by left|right].
  apply list_elem_of_fmap in Hv as (w & Hkey & Hw).
  injection Hkey as Hloc Hid. rewrite Hid.
  apply list_elem_of_fmap_2, list_elem_of_filter. by split.
Qed.

(** The first collision of a batch is where it is: two ways of cutting the
    batch at a colliding view after a fresh prefix are the same cut. *)
Lemma first_collision_unique this pre v post pre' v' post' :
  pre ++ v :: post = pre' ++ v' :: post' →
  fresh_batch this pre → collides this pre v →
  fresh_batch this pre' → collides this pre' v' →
  pre = pre' ∧ v = v' ∧ post = post'.
Proof.
  intros Heq Hpre Hv Hpre' Hv'.
  apply app_eq_inv in Heq as [(k & -> & Hk)|(k & -> & Hk)].
  - destruct k as [|w k]; simplify_eq/=.
    + by rewrite app_nil_r.
    + by apply collides_not_fresh in Hpre.
  - destruct k as [|w k]; simplify_eq/=.
    + by rewrite app_nil_r.
    + by apply collides_not_fresh in Hpre'.
Qed.

Lemma snoc_ne {A} (l : list A) x : l ++ [x] ≠ l.
Proof.
  intros Heq%(f_equal length). rewrite length_app in Heq. simpl in Heq.
  apply (f_equal Z.of_nat) in Heq. lia.
Qed.

(** [registerViews] on a fresh batch that is not empty. *)
Lemma registerViews_run_fresh this batch :
  batch ≠ [] → fresh_batch this batch →
  ∃ this',
    registerViews batch this = (inr tt, this') ∧
    (∀ loc, getViews this' loc
            = getViews this loc ++ filter (λ v, location v = loc) batch) ∧
    _treeViewDataPoviders this' = _treeViewDataPoviders this ∧
    fired this' = fired this ++ [onViewsRegistered batch].
Proof.
  intros Hne Hfresh.
  destruct (for_of_registerView_fresh batch this Hfresh)
    as (this1 & Hrun & Hviews & Hprov & Hfired).
  unfold registerViews. rewrite bool_decide_eq_true_2 by by destruct batch.
  unfold mbind, M_bind. rewrite Hrun. eexists. split; [done|]. simpl.
  by rewrite Hfired.
Qed.

(** [registerViews] on a batch cut at its first collision. *)
Lemma registerViews_run_taken this pre v post :
  fresh_batch this pre → collides this pre v →
  ∃ this',
    registerViews (pre ++ v :: post) this
    = (inl (duplicateId (id v) (ViewLocation.id (location v))), this') ∧
    (∀ loc, getViews this' loc
            = getViews this loc ++ filter (λ v, location v = loc) pre) ∧
    _treeViewDataPoviders this' = _treeViewDataPoviders this ∧
    fired this' = fired this.
Proof.
  intros Hpre Hv.
  destruct (for_of_registerView_taken pre v post this Hpre Hv)
    as (this1 & Hrun & Hrest).
  unfold registerViews. rewrite bool_decide_eq_true_2 by by destruct pre.
  unfold mbind, M_bind. rewrite Hrun. by exists this1.
Qed.

Lemma registerViews_run_nil this : registerViews [] this = (inr tt, this).
Proof. done. Qed.

(** A property of the registry that every turn of a loop keeps is kept by
    the loop, whether it runs to its end or throws. *)
Lemma for_of_preserves {A} (P : ViewsRegistry → Prop) (body : A → M unit) l :
  (∀ x this, P this → P (body x this).2) →
  ∀ this, P this → P (for_of l body this).2.
Proof.
  intros Hbody. induction l as [|x l IH]; intros this HP; simpl; [done|].
  unfold mbind, M_bind. specialize (Hbody x this HP).
  destruct (body x this) as [[e|[]] this1]; simpl in *; [done|]. by apply IH.
Qed.

Lemma registerView_cases v this :
  registerView v this
  = (inl (duplicateId (id v) (ViewLocation.id (location v))), this)
  ∨ ((id v ∉ id <$> getViews this (location v)) ∧
     (registerView v this
      = (inr tt,
         upd_views (<[location v := getViews this (location v) ++ [v]]>) this))).
Proof.
  destruct (decide (id v ∈ id <$> getViews this (location v))).
  - left. by apply registerView_taken.
  - right. split; [done|]. by apply registerView_free.
Qed.

Lemma registerView_unique_ids v this :
  unique_ids this → unique_ids (registerView v this).2.
Proof.
  intros Huniq. destruct (registerView_cases v this) as [->|[Hfree ->]]; [done|].
  intros loc views. simpl. rewrite lookup_insert. case_decide as Hloc.
  - intros [= <-]. rewrite fmap_app. apply NoDup_app. split; [|split].
    + unfold getViews. destruct (_views this !! location v) eqn:Hget; simpl.
      * by eapply Huniq.
      * constructor.
    + by intros k Hk ->%list_elem_of_singleton.
    + apply NoDup_singleton.
  - apply Huniq.
Qed.

Lemma registerView_treeViewDataPoviders v this :
  _treeViewDataPoviders (registerView v this).2 = _treeViewDataPoviders this.
Proof. by destruct (registerView_cases v this) as [->|[_ ->]]. Qed.

(** What [registerViews] leaves of the registry: the registry its loop left,
    with at most one more notification. *)
Lemma registerViews_state batch this :
  (registerViews batch this).2 = this ∨
  ∃ this', this' = (for_of batch registerView this).2 ∧
    ((registerViews batch this).2 = this' ∨
     (registerViews batch this).2
     = {| _views := _views this';
          _treeViewDataPoviders := _treeViewDataPoviders this';
          fired := fired this' ++ [onViewsRegistered batch] |}).
Proof.
  unfold registerViews. case_bool_decide; [|by left]. right.
  eexists; split; [done|]. unfold mbind, M_bind.
  destruct (for_of batch registerView this) as [[e|[]] this']; simpl; auto.
Qed.

Lemma registerViews_unique_ids batch this :
  unique_ids this → unique_ids (registerViews batch this).2.
Proof.
  intros Huniq.
  pose proof (for_of_preserves unique_ids registerView batch
                registerView_unique_ids this Huniq) as Hloop.
  destruct (registerViews_state batch this) as [->|(this' & -> & [->| ->])];
    done.
Qed.

Lemma registerViews_treeViewDataPoviders batch this :
  _treeViewDataPoviders (registerViews batch this).2
  = _treeViewDataPoviders this.
Proof.
  pose proof (for_of_preserves
    (λ this', _treeViewDataPoviders this' = _treeViewDataPoviders this)
    registerView batch) as Hloop.
  specialize (Hloop (λ v this' H, eq_trans
    (registerView_treeViewDataPoviders v this') H) this eq_refl).
  destruct (registerViews_state batch this) as [->|(this' & -> & [->| ->])];
    done.
Qed.

Lemma filter_indexOf_in ids (views : list IViewDescriptor) :
  filter (λ view, indexOf ids (id view) ≠ -1) views
  = filter (λ view, id view ∈ ids) views.
Proof. apply list_filter_iff. intros v. apply indexOf_elem_of. Qed.

Lemma filter_indexOf_out ids (views : list IViewDescriptor) :
  filter (λ view, indexOf ids (id view) = -1) views
  = filter (λ view, id view ∉ ids) views.
Proof. apply list_filter_iff. intros v. apply indexOf_not_elem_of. Qed.

Lemma filter_none_id {A} (P : A → Prop) `{!∀ x, Decision (P x)} l :
  filter P l = [] → filter (λ x, ¬ P x) l = l.
Proof.
  induction l as [|x l IH]; [done|]. rewrite !filter_cons.
  destruct (decide (P x)); [done|]. intros Hl.
  destruct (decide (¬ P x)); [|done]. by rewrite IH.
Qed.

(** [deregisterViews] on a location that has an array in the map. *)
Lemma deregisterViews_run_Some ids loc views this :
  _views this !! loc = Some views →
  deregisterViews ids loc this
  = (inr tt,
     {| _views := <[loc := filter (λ v, id v ∉ ids) views]> (_views this);
        _treeViewDataPoviders := _treeViewDataPoviders this;
        fired := fired this
                 ++ [onViewsDeregistered (filter (λ v, id v ∈ ids) views)] |}).
Proof.
  intros Hget. unfold deregisterViews. run_M.
  rewrite Hget. rewrite filter_indexOf_in, filter_indexOf_out.
  case_bool_decide as Hlen; simpl; [done|].
  assert (filter (λ v, id v ∈ ids) views = []) as Hnone.
  { by destruct (filter (λ v, id v ∈ ids) views). }
  rewrite (filter_none_id _ _ Hnone), insert_id by done. by rewrite Hnone.
Qed.

Lemma deregisterViews_run_None ids loc this :
  _views this !! loc = None → deregisterViews ids loc this = (inr tt, this).
Proof.
  intros Hget. unfold deregisterViews. run_M.
  by rewrite Hget.
Qed.

Lemma NoDup_fmap_filter {A B} (f : A → B) (P : A → Prop)
    `{!∀ x, Decision (P x)} l :
  NoDup (f <$> l) → NoDup (f <$> filter P l).
Proof.
  induction l as [|x l IH]; [done|]. rewrite fmap_cons, NoDup_cons, filter_cons.
  intros [Hx Hl]. destruct (decide (P x)); [|by apply IH].
  rewrite fmap_cons. apply NoDup_cons. split; [|by apply IH].
  intros (y & Hy & Hin%list_elem_of_filter)%list_elem_of_fmap.
  apply Hx. rewrite Hy. apply list_elem_of_fmap_2. tauto.
Qed.

Lemma deregisterViews_unique_ids ids loc this :
  unique_ids this → unique_ids (deregisterViews ids loc this).2.
Proof.
  intros Huniq. destruct (_views this !! loc) as [views|] eqn:Hget.
  - rewrite (deregisterViews_run_Some _ _ _ _ Hget). simpl.
    intros loc' views'. simpl. rewrite lookup_insert. case_decide.
    + intros [= <-]. apply NoDup_fmap_filter. by eapply Huniq.
    + apply Huniq.
  - by rewrite deregisterViews_run_None.
Qed.

Lemma registerTreeViewDataProvider_run id' factory this :
  registerTreeViewDataProvider id' factory this
  = (inr tt,
     {| _views := _views this;
        _treeViewDataPoviders := <[id' := factory]> (_treeViewDataPoviders this);
        fired := fired this ++ [onTreeViewDataProviderRegistered id'] |}).
Proof.
  unfold registerTreeViewDataProvider, isDataProviderRegistered.
  run_M. by destruct (negb _).
Qed.

Lemma call_unique_ids c this : unique_ids this → unique_ids (call c this).2.
Proof.
  destruct c as [batch|ids loc|id' factory|]; simpl.
  - apply registerViews_unique_ids.
  - apply deregisterViews_unique_ids.
  - by rewrite registerTreeViewDataProvider_run.
  - done.
Qed.

Lemma after_unique_ids calls this :
  unique_ids this → unique_ids (after calls this).
Proof.
  revert this. induction calls as [|c calls IH]; intros this Huniq; [done|].
  apply IH. by apply call_unique_ids.
Qed.

Lemma unique_ids_initial : unique_ids initial.
Proof. intros loc views. simpl. by rewrite lookup_empty. Qed.

Lemma fresh_batch_app_l this batch1 batch2 :
  fresh_batch this (batch1 ++ batch2) → fresh_batch this batch1.
Proof.
  intros [Hnd Hfree]. rewrite fmap_app, NoDup_app in Hnd. split; [tauto|].
  intros v Hv. apply Hfree, elem_of_app. by left.
Qed.

Lemma fresh_batch_app_r this this' batch1 batch2 :
  fresh_batch this (batch1 ++ batch2) →
  (∀ loc, getViews this' loc
          = getViews this loc ++ filter (λ v, location v = loc) batch1) →
  fresh_batch this' batch2.
Proof.
  intros [Hnd Hfree] Hviews. rewrite fmap_app, NoDup_app in Hnd.
  destruct Hnd as (Hnd1 & Hdisj & Hnd2). split; [done|].
  intros v Hv. rewrite Hviews, fmap_app, elem_of_app.
  intros [Hin|(w & Hid & [Hloc Hw]%list_elem_of_filter)%list_elem_of_fmap].
  - eapply Hfree; [|done]. apply elem_of_app. by right.
  - apply (Hdisj (key w)); [by apply list_elem_of_fmap_2|].
    apply list_elem_of_fmap. exists v. split; [|done].
    unfold key. by rewrite Hloc, Hid.
Qed.

(** X1. Batches registered one call after the other, no (location, id) pair
    occurring twice over all of them nor in the registry: each location then
    lists its former views followed by the registered ones in the order of
    registration. *)
Lemma getViews_after_registerViews batches this loc :
  fresh_batch this (concat batches) →
  getViews (after (call_registerViews <$> batches) this) loc
  = getViews this loc ++ filter (λ v, location v = loc) (concat batches).
Proof.
  revert this. induction batches as [|batch batches IH]; intros this Hfresh.
  { simpl. by rewrite filter_nil, app_nil_r. }
  simpl in *. destruct (decide (batch = [])) as [->|Hne].
  - rewrite registerViews_run_nil. simpl. by apply IH.
  - destruct (registerViews_run_fresh this batch Hne) as (this' & Hrun & Hviews & _).
    { by eapply fresh_batch_app_l. }
    rewrite Hrun. simpl. rewrite IH.
    + by rewrite Hviews, filter_app, app_assoc.
    + by eapply (fresh_batch_app_r this).
Qed.

(** ** [registerViews] *)

(** C1. When the batch given to [registerViews] holds a view whose id is
    already in the sequence of its location when its turn comes (taken by a
    registered view, or by a view earlier in the batch), the call throws the
    duplicate-id error carrying the id and the id of the location of the first
    such view, [offending]; the views before it have been appended to the
    sequences of their locations, in order, and neither [offending] nor a view
    after it has been; when the views before [v] are fresh, [offending] is [v]
    itself. *)
Theorem registerViews_duplicate this viewDescriptors earlier v later :
  viewDescriptors = earlier ++ v :: later →
  collides this earlier v →
  ∃ pre offending post,
    viewDescriptors = pre ++ offending :: post ∧
    fresh_batch this pre ∧ collides this pre offending ∧
    (fresh_batch this earlier → pre = earlier ∧ offending = v ∧ post = later) ∧
    (registerViews viewDescriptors this).1
    = inl (duplicateId (id offending) (ViewLocation.id (location offending))) ∧
    (∀ loc, getViews (registerViews viewDescriptors this).2 loc
            = getViews this loc ++ filter (λ w, location w = loc) pre) ∧
    _treeViewDataPoviders (registerViews viewDescriptors this).2
    = _treeViewDataPoviders this.
Proof.
  intros Hcut Hv.
  destruct (first_collision this viewDescriptors)
    as [Hfresh|(pre & w & post & Hcut' & Hpre & Hw)].
  { subst. by apply collides_not_fresh in Hfresh. }
  exists pre, w, post. split; [done|]. split; [done|]. split; [done|].
  split.
  { intros Hearlier. rewrite Hcut in Hcut'. symmetry in Hcut'.
    by apply (first_collision_unique this). }
  destruct (registerViews_run_taken this pre w post Hpre Hw)
    as (this' & Hrun & Hviews & Hprov & _).
  rewrite Hcut', Hrun. done.
Qed.

(** C2. When the batch given to [registerViews] is not empty and none of its
    (location, id) pairs collides with another pair of the batch or with a
    registered view, the call returns, [getViews] of every location is then
    its former sequence followed by the views of the batch for that location
    in the order of the batch, and one notification was fired, on
    [onViewsRegistered], with the whole batch. *)
Theorem registerViews_appends this viewDescriptors :
  viewDescriptors ≠ [] →
  fresh_batch this viewDescriptors →
  (registerViews viewDescriptors this).1 = inr tt ∧
  (∀ loc, getViews (registerViews viewDescriptors this).2 loc
          = getViews this loc
            ++ filter (λ v, location v = loc) viewDescriptors) ∧
  fired (registerViews viewDescriptors this).2
  = fired this ++ [onViewsRegistered viewDescriptors] ∧
  _treeViewDataPoviders (registerViews viewDescriptors this).2
  = _treeViewDataPoviders this.
Proof.
  intros Hne Hfresh.
  destruct (registerViews_run_fresh this viewDescriptors Hne Hfresh)
    as (this' & Hrun & Hviews & Hprov & Hfired).
  by rewrite Hrun.
Qed.

(** C8. [registerViews] with an empty array returns without an exception,
    leaves the registry as it is and fires nothing. *)
Theorem registerViews_empty this :
  registerViews [] this = (inr tt, this).
Proof. apply registerViews_run_nil. Qed.

(** C9, amended. A call of [registerViews] that throws fires nothing; the
    call fires (once, on [onViewsRegistered], with the batch) exactly when the
    batch is not empty and the call returns, and fires nothing exactly when the
    batch is empty or the call throws. *)
Theorem registerViews_fires this viewDescriptors :
  (fired (registerViews viewDescriptors this).2
   = fired this ++ [onViewsRegistered viewDescriptors]
   ↔ viewDescriptors ≠ [] ∧ (registerViews viewDescriptors this).1 = inr tt) ∧
  (fired (registerViews viewDescriptors this).2 = fired this
   ↔ viewDescriptors = [] ∨ ∃ e, (registerViews viewDescriptors this).1 = inl e).
Proof.
  destruct (first_collision this viewDescriptors)
    as [Hfresh|(pre & w & post & -> & Hpre & Hw)].
  - destruct (decide (viewDescriptors = [])) as [->|Hne].
    + rewrite registerViews_run_nil. simpl. split.
      * split; [by intros ?%symmetry%snoc_ne | by intros []].
      * split; [by left | done].
    + destruct (registerViews_run_fresh this viewDescriptors Hne Hfresh)
        as (this' & Hrun & _ & _ & Hfired).
      rewrite Hrun. simpl. rewrite Hfired. split; [done|].
      split; [by intros ?%snoc_ne | by intros [?|[? ?]]].
  - destruct (registerViews_run_taken this pre w post Hpre Hw)
      as (this' & Hrun & _ & _ & Hfired).
    rewrite Hrun. simpl. rewrite Hfired. split.
    + split; [by intros ?%symmetry%snoc_ne | by intros []].
    + split; [right; eauto | done].
Qed.

(** ** [deregisterViews] *)

(** C3, amended. [deregisterViews ids loc] on a location that has no array in
    the map (no view was ever registered there) returns with the registry
    untouched and nothing fired.  On a location that has one, also an empty
    one, the array becomes its views whose id is not in [ids], in their former
    order, the other locations keep theirs, and one notification is fired, on
    [onViewsDeregistered], with the views whose id is in [ids], in their former
    order, be there none of them. *)
Theorem deregisterViews_removes this ids loc :
  match _views this !! loc with
  | None => deregisterViews ids loc this = (inr tt, this)
  | Some views =>
      (deregisterViews ids loc this).1 = inr tt ∧
      _views (deregisterViews ids loc this).2 !! loc
      = Some (filter (λ v, id v ∉ ids) views) ∧
      (∀ loc', loc' ≠ loc →
         _views (deregisterViews ids loc this).2 !! loc' = _views this !! loc') ∧
      fired (deregisterViews ids loc this).2
      = fired this ++ [onViewsDeregistered (filter (λ v, id v ∈ ids) views)] ∧
      _treeViewDataPoviders (deregisterViews ids loc this).2
      = _treeViewDataPoviders this
  end.
Proof.
  destruct (_views this !! loc) as [views|] eqn:Hget.
  - rewrite (deregisterViews_run_Some _ _ _ _ Hget). simpl.
    split; [done|]. split; [by rewrite lookup_insert_eq|]. split; [|done].
    intros loc' Hne. by rewrite lookup_insert_ne.
  - by apply deregisterViews_run_None.
Qed.

(** ** The invariant of the registry *)

(** C5. In the registry reached from the empty one by any series of calls of
    the four mutating methods, a call that throws leaving what it had done, no
    two views of one location have the same id; and registering there a view
    whose id its location already has throws the duplicate-id error and leaves
    the registry exactly as it was. *)
Theorem reachable_unique_ids calls :
  unique_ids (after calls initial) ∧
  ∀ v, id v ∈ id <$> getViews (after calls initial) (location v) →
       registerViews [v] (after calls initial)
       = (inl (duplicateId (id v) (ViewLocation.id (location v))),
          after calls initial).
Proof.
  split.
  - apply after_unique_ids, unique_ids_initial.
  - intros v Htaken. unfold registerViews. simpl.
    unfold mbind, M_bind. by rewrite registerView_taken.
Qed.

(** ** Tree view data providers *)

(** C6. [registerTreeViewDataProvider id P1] followed by
    [registerTreeViewDataProvider id P2]: both calls return, each fires one
    notification, on [onTreeViewDataProviderRegistered], with [id], and
    [getTreeViewDataProvider id] gives [P1] after the first call and [P2] after
    the second. *)
Theorem registerTreeViewDataProvider_replaces this id' P1 P2 :
  let r1 := registerTreeViewDataProvider id' P1 this in
  let r2 := registerTreeViewDataProvider id' P2 r1.2 in
  r1.1 = inr tt ∧ r2.1 = inr tt ∧
  getTreeViewDataProvider r1.2 id' = Some P1 ∧
  getTreeViewDataProvider r2.2 id' = Some P2 ∧
  fired r1.2 = fired this ++ [onTreeViewDataProviderRegistered id'] ∧
  fired r2.2 = fired r1.2 ++ [onTreeViewDataProviderRegistered id'].
Proof.
  simpl. rewrite !registerTreeViewDataProvider_run. simpl.
  unfold getTreeViewDataProvider. simpl. by rewrite !lookup_insert_eq.
Qed.

(** C7. [deregisterTreeViewDataProviders] returns whatever the registry
    holds; afterwards [getTreeViewDataProvider] gives nothing for any id, and
    nothing was fired. *)
Theorem deregisterTreeViewDataProviders_clears this :
  (deregisterTreeViewDataProviders this).1 = inr tt ∧
  (∀ id', getTreeViewDataProvider (deregisterTreeViewDataProviders this).2 id'
          = None) ∧
  fired (deregisterTreeViewDataProviders this).2 = fired this.
Proof.
  split; [done|]. split; [|done]. intros id'.
  unfold getTreeViewDataProvider. simpl. apply lookup_empty.
Qed.

(** ** Frame *)

(** C10. [registerViews] and [deregisterViews] leave the provider bindings
    as they are, whether they return or throw;
    [registerTreeViewDataProvider] and [deregisterTreeViewDataProviders] leave
    the map of views as it is; and [deregisterViews ids loc] leaves the array
    of every location other than [loc] as it is. *)
Theorem registry_maps_isolated this :
  (∀ viewDescriptors,
     _treeViewDataPoviders (registerViews viewDescriptors this).2
     = _treeViewDataPoviders this) ∧
  (∀ ids loc,
     _treeViewDataPoviders (deregisterViews ids loc this).2
     = _treeViewDataPoviders this) ∧
  (∀ id' factory,
     _views (registerTreeViewDataProvider id' factory this).2 = _views this) ∧
  _views (deregisterTreeViewDataProviders this).2 = _views this ∧
  (∀ ids loc loc', loc' ≠ loc →
     _views (deregisterViews ids loc this).2 !! loc' = _views this !! loc').
Proof.
  split; [intros batch; apply registerViews_treeViewDataPoviders|].
  split.
  { intros ids loc. destruct (_views this !! loc) as [views|] eqn:Hget.
    - by rewrite (deregisterViews_run_Some _ _ _ _ Hget).
    - by rewrite deregisterViews_run_None. }
  split.
  { intros id' factory. by rewrite registerTreeViewDataProvider_run. }
  split; [done|].
  intros ids loc loc' Hne. destruct (_views this !! loc) as [views|] eqn:Hget.
  - rewrite (deregisterViews_run_Some _ _ _ _ Hget). simpl.
    by rewrite lookup_insert_ne.
  - by rewrite deregisterViews_run_None.
Qed.

(** ** Further properties of the methods *)

Lemma filter_all_id {A} (P : A → Prop) `{!∀ x, Decision (P x)} (l : list A) :
  (∀ x, x ∈ l → P x) → filter P l = l.
Proof.
  induction l as [|x l IH]; intros HP; [done|].
  rewrite filter_cons_True by (apply HP; by left).
  f_equal. apply IH. intros y Hy. apply HP. by right.
Qed.

Lemma filter_none_nil {A} (P : A → Prop) `{!∀ x, Decision (P x)} (l : list A) :
  (∀ x, x ∈ l → ¬ P x) → filter P l = [].
Proof.
  induction l as [|x l IH]; intros HP; [done|].
  rewrite filter_cons_False by (apply HP; by left).
  apply IH. intros y Hy. apply HP. by right.
Qed.

Lemma getViews_Some this loc views :
  _views this !! loc = Some views → getViews this loc = views.
Proof. intros Hget. unfold getViews. by rewrite Hget. Qed.

Lemma getViews_None this loc :
  _views this !! loc = None → getViews this loc = [].
Proof. intros Hget. unfold getViews. by rewrite Hget. Qed.

(** What the fold of [isDataProviderRegistered] computes over a map. *)
Lemma map_fold_some_id id' (m : gmap ViewLocation.t (list IViewDescriptor)) :
  map_fold (λ _ views registered, registered || some_id id' views) false m
  = true
  ↔ ∃ loc views, m !! loc = Some views ∧ id' ∈ id <$> views.
Proof.
  apply (map_fold_weak_ind (λ r m, r = true
    ↔ ∃ loc views, m !! loc = Some views ∧ id' ∈ id <$> views)).
  - split; [done|]. intros (loc & views & Hget & _).
    by rewrite lookup_empty in Hget.
  - intros loc views m' r Hfresh IH. rewrite orb_true_iff, IH, some_id_true.
    split.
    + intros [(loc' & views' & Hget & Hin)|Hin].
      * exists loc', views'. split; [|done].
        rewrite lookup_insert_ne; [done|]. intros ->. congruence.
      * exists loc, views. by rewrite lookup_insert_eq.
    + intros (loc' & views' & Hget & Hin).
      rewrite lookup_insert in Hget. case_decide; simplify_eq; eauto.
Qed.

(** X2. [isDataProviderRegistered id] leaves the registry as it is, never throws,
    and answers [true] exactly when some location lists a view with that
    id. *)
Theorem isDataProviderRegistered_views id' this :
  (isDataProviderRegistered id' this = (inr true, this)
   ↔ ∃ loc views, _views this !! loc = Some views ∧ id' ∈ id <$> views) ∧
  (isDataProviderRegistered id' this = (inr false, this)
   ↔ ¬ ∃ loc views, _views this !! loc = Some views ∧ id' ∈ id <$> views).
Proof.
  unfold isDataProviderRegistered, gets. rewrite <-map_fold_some_id.
  destruct (map_fold _ false (_views this)); split; split; congruence.
Qed.

(** X4. [deregisterViews] with ids that no view of the location has (an empty
    [ids] among them) leaves the map of views as it is; it still fires, with
    an empty array, when the location has an array in the map, and fires
    nothing when it has none. *)
Theorem deregisterViews_no_match this ids loc :
  (∀ v, v ∈ getViews this loc → id v ∉ ids) →
  (deregisterViews ids loc this).1 = inr tt ∧
  _views (deregisterViews ids loc this).2 = _views this ∧
  fired (deregisterViews ids loc this).2
  = fired this ++ match _views this !! loc with
                  | Some _ => [onViewsDeregistered []]
                  | None => []
                  end.
Proof.
  intros Hnone. destruct (_views this !! loc) as [views|] eqn:Hget.
  - rewrite (getViews_Some _ _ _ Hget) in Hnone.
    rewrite (deregisterViews_run_Some _ _ _ _ Hget). simpl.
    rewrite (filter_all_id _ views) by done.
    rewrite (filter_none_nil (λ v, id v ∈ ids) views)
      by (intros v Hv; by apply Hnone).
    by rewrite insert_id.
  - rewrite deregisterViews_run_None by done. by rewrite app_nil_r.
Qed.

(** X5. [deregisterViews] is idempotent on the map of views: a second call with
    the same arguments changes no array, and fires an empty array when the
    location has an array in the map. *)
Theorem deregisterViews_twice this ids loc :
  _views (deregisterViews ids loc (deregisterViews ids loc this).2).2
  = _views (deregisterViews ids loc this).2 ∧
  fired (deregisterViews ids loc (deregisterViews ids loc this).2).2
  = fired (deregisterViews ids loc this).2
    ++ match _views this !! loc with
       | Some _ => [onViewsDeregistered []]
       | None => []
       end.
Proof.
  destruct (_views this !! loc) as [views|] eqn:Hget.
  - rewrite (deregisterViews_run_Some _ _ _ _ Hget).
    erewrite deregisterViews_run_Some by apply lookup_insert_eq. simpl.
    rewrite (filter_all_id (λ v, id v ∉ ids) (filter (λ v, id v ∉ ids) views))
      by (by intros v [? _]%list_elem_of_filter).
    rewrite (filter_none_nil (λ v, id v ∈ ids) (filter (λ v, id v ∉ ids) views)).
    2:{ intros v [Hv _]%list_elem_of_filter. exact Hv. }
    by rewrite insert_insert_eq.
  - rewrite (deregisterViews_run_None _ _ _ Hget). simpl.
    rewrite (deregisterViews_run_None _ _ _ Hget). by rewrite app_nil_r.
Qed.

(** [registerViews] on a fresh batch, empty or not. *)
Lemma registerViews_run_fresh_any this batch :
  fresh_batch this batch →
  ∃ this',
    registerViews batch this = (inr tt, this') ∧
    (∀ loc, getViews this' loc
            = getViews this loc ++ filter (λ v, location v = loc) batch) ∧
    fired this'
    = fired this ++ match batch with
                    | [] => []
                    | _ => [onViewsRegistered batch]
                    end.
Proof.
  intros Hfresh. destruct batch as [|v batch].
  - exists this. rewrite registerViews_run_nil. split; [done|].
    split; [|by rewrite app_nil_r]. intros loc. by rewrite filter_nil, app_nil_r.
  - destruct (registerViews_run_fresh this (v :: batch)) as (this' & ? & ? & _ & ?);
      [done..|]. by exists this'.
Qed.

Lemma getViews_deregisterViews ids loc this :
  getViews (deregisterViews ids loc this).2 loc
  = filter (λ v, id v ∉ ids) (getViews this loc).
Proof.
  destruct (_views this !! loc) as [views|] eqn:Hget.
  - rewrite (deregisterViews_run_Some _ _ _ _ Hget), (getViews_Some _ _ _ Hget).
    apply getViews_Some. simpl. apply lookup_insert_eq.
  - rewrite (deregisterViews_run_None _ _ _ Hget). simpl.
    by rewrite (getViews_None _ _ Hget).
Qed.

Lemma getViews_deregisterViews_ne ids loc loc' this :
  loc' ≠ loc → getViews (deregisterViews ids loc this).2 loc' = getViews this loc'.
Proof.
  intros Hne. destruct (_views this !! loc) as [views|] eqn:Hget.
  - rewrite (deregisterViews_run_Some _ _ _ _ Hget). unfold getViews. simpl.
    by rewrite lookup_insert_ne.
  - by rewrite (deregisterViews_run_None _ _ _ Hget).
Qed.

(** X3. A batch that threw after some of its views were appended throws again
    when it is given a second time, now at its first view, and this second
    call changes nothing. *)
Theorem registerViews_retry this u pre v post :
  fresh_batch this (u :: pre) →
  collides this (u :: pre) v →
  registerViews (u :: pre ++ v :: post)
                (registerViews (u :: pre ++ v :: post) this).2
  = (inl (duplicateId (id u) (ViewLocation.id (location u))),
     (registerViews (u :: pre ++ v :: post) this).2).
Proof.
  intros Hpre Hv.
  destruct (registerViews_run_taken this (u :: pre) v post Hpre Hv)
    as (this1 & Hrun & Hviews & _).
  simpl in Hrun. rewrite Hrun. simpl.
  unfold registerViews. rewrite bool_decide_eq_true_2 by done. simpl.
  unfold mbind, M_bind. rewrite registerView_taken; [done|].
  rewrite Hviews, filter_cons_True, fmap_app, fmap_cons by done.
  apply elem_of_app. right. by left.
Qed.

(** X6. Registering a fresh batch and then deregistering, in one location, the ids
    the batch brought there gives back what [getViews] listed for that location
    before; the other locations keep what the batch brought them; and when the
    batch brought that location a view, the two notifications are the batch,
    then exactly the views it brought there. *)
Theorem registerViews_deregisterViews this batch loc :
  fresh_batch this batch →
  let brought := filter (λ v, location v = loc) batch in
  let this1 := (registerViews batch this).2 in
  let this2 := (deregisterViews (id <$> brought) loc this1).2 in
  getViews this2 loc = getViews this loc ∧
  (∀ loc', loc' ≠ loc → getViews this2 loc' = getViews this1 loc') ∧
  (brought ≠ [] →
   fired this2
   = fired this ++ [onViewsRegistered batch; onViewsDeregistered brought]).
Proof.
  intros Hfresh brought this1 this2.
  destruct (registerViews_run_fresh_any this batch Hfresh)
    as (this' & Hrun & Hviews & Hfired).
  assert (this1 = this') as Hthis1 by (unfold this1; by rewrite Hrun).
  assert (filter (λ v, id v ∉ id <$> brought) (getViews this loc)
          = getViews this loc) as Hold.
  { apply filter_all_id. intros w Hw (x & Hid & [Hloc Hx]%list_elem_of_filter)
      %list_elem_of_fmap.
    destruct Hfresh as [_ Hfree]. apply (Hfree x Hx).
    rewrite Hloc, <-Hid. by apply list_elem_of_fmap_2. }
  assert (filter (λ v, id v ∉ id <$> brought) brought = []) as Hnew.
  { apply filter_none_nil. intros w Hw Hnot. apply Hnot.
    by apply list_elem_of_fmap_2. }
  split; [|split].
  - unfold this2. rewrite getViews_deregisterViews, Hthis1, Hviews.
    fold brought. by rewrite filter_app, Hold, Hnew, app_nil_r.
  - intros loc' Hne. unfold this2. by apply getViews_deregisterViews_ne.
  - intros Hbrought. unfold this2. rewrite Hthis1.
    destruct (_views this' !! loc) as [views|] eqn:Hget.
    + assert (filter (λ v, id v ∈ id <$> brought) views = brought) as Hpayload.
      { rewrite <-(getViews_Some _ _ _ Hget), Hviews. fold brought.
        rewrite filter_app, (filter_none_nil _ (getViews this loc)).
        - apply filter_all_id. intros w Hw. by apply list_elem_of_fmap_2.
        - intros w Hw (x & Hid & [Hloc Hx]%list_elem_of_filter)%list_elem_of_fmap.
          destruct Hfresh as [_ Hfree]. apply (Hfree x Hx).
          rewrite Hloc, <-Hid. by apply list_elem_of_fmap_2. }
      rewrite (deregisterViews_run_Some _ _ _ _ Hget). simpl.
      rewrite Hfired, Hpayload. destruct batch as [|v batch]; [done|].
      by rewrite <-app_assoc.
    + pose proof (Hviews loc) as Hloc. rewrite (getViews_None _ _ Hget) in Hloc.
      fold brought in Hloc. symmetry in Hloc.
      by apply app_eq_nil in Hloc as [_ ?].
Qed.

(** X7. Deregistering ids frees them: right after [deregisterViews ids loc], a
    view of that location with one of these ids is accepted by
    [registerViews] and goes to the end of what the deregistration left. *)
Theorem deregisterViews_frees_ids this ids v :
  id v ∈ ids →
  let this1 := (deregisterViews ids (location v) this).2 in
  (registerViews [v] this1).1 = inr tt ∧
  getViews (registerViews [v] this1).2 (location v)
  = filter (λ w, id w ∉ ids) (getViews this (location v)) ++ [v].
Proof.
  intros Hid this1.
  destruct (registerViews_run_fresh this1 [v]) as (this2 & Hrun & Hviews & _).
  - done.
  - split; [apply NoDup_singleton|].
    intros w ->%list_elem_of_singleton. unfold this1.
    rewrite getViews_deregisterViews.
    by intros (x & Hx & [Hout _]%list_elem_of_filter)%list_elem_of_fmap;
      rewrite Hx in Hid.
  - rewrite Hrun. simpl. split; [done|]. rewrite Hviews. unfold this1.
    rewrite getViews_deregisterViews. by rewrite filter_cons_True.
Qed.

(** X8. Whatever the batch, [registerViews] only appends: the views it has added
    are a prefix [pre] of the batch, each at the end of the sequence of its
    location in the order of the batch, no registered view is removed or moved,
    and the call returns exactly when the prefix is the whole batch. *)
Theorem registerViews_only_appends this viewDescriptors :
  ∃ pre post,
    viewDescriptors = pre ++ post ∧
    (∀ loc, getViews (registerViews viewDescriptors this).2 loc
            = getViews this loc ++ filter (λ v, location v = loc) pre) ∧
    ((registerViews viewDescriptors this).1 = inr tt ↔ post = []).
Proof.
  destruct (first_collision this viewDescriptors)
    as [Hfresh|(pre & w & post & -> & Hpre & Hw)].
  - destruct (registerViews_run_fresh_any this viewDescriptors Hfresh)
      as (this' & Hrun & Hviews & _).
    exists viewDescriptors, []. rewrite Hrun, app_nil_r. done.
  - destruct (registerViews_run_taken this pre w post Hpre Hw)
      as (this' & Hrun & Hviews & _).
    exists pre, (w :: post). rewrite Hrun. done.
Qed.

Lemma after_app calls1 calls2 this :
  after (calls1 ++ calls2) this = after calls2 (after calls1 this).
Proof. apply foldl_app. Qed.

Lemma registerView_fired v this : fired (registerView v this).2 = fired this.
Proof. by destruct (registerView_cases v this) as [->|[_ ->]]. Qed.

(** One call fires at most once, after what was fired before. *)
Lemma call_fired c this :
  ∃ more, fired (call c this).2 = fired this ++ more ∧ (length more ≤ 1)%nat.
Proof.
  destruct c as [batch|ids loc|id' factory|]; simpl.
  - pose proof (for_of_preserves (λ this', fired this' = fired this)
                  registerView batch) as Hloop.
    specialize (Hloop (λ v this' H, eq_trans (registerView_fired v this') H)
                      this eq_refl).
    destruct (registerViews_state batch this) as [->|(this' & -> & [->| ->])].
    + exists []. rewrite app_nil_r. split; [done | simpl; lia].
    + exists []. rewrite app_nil_r. split; [done | simpl; lia].
    + simpl. rewrite Hloop. eexists [_]. split; [done | simpl; lia].
  - destruct (_views this !! loc) as [views|] eqn:Hget.
    + rewrite (deregisterViews_run_Some _ _ _ _ Hget). eexists [_]. split; [done | simpl; lia].
    + rewrite (deregisterViews_run_None _ _ _ Hget). exists [].
      rewrite app_nil_r. split; [done | simpl; lia].
  - rewrite registerTreeViewDataProvider_run. eexists [_]. split; [done | simpl; lia].
  - exists []. rewrite app_nil_r. split; [done | simpl; lia].
Qed.

(** X9. No call rewrites what was fired: after a series of calls the history of
    notifications is the former one followed by at most one notification per
    call. *)
Theorem after_fired_extends calls this :
  ∃ more,
    fired (after calls this) = fired this ++ more ∧
    (length more ≤ length calls)%nat.
Proof.
  revert this. induction calls as [|c calls IH]; intros this.
  - exists []. rewrite app_nil_r. split; [done | simpl; lia].
  - destruct (call_fired c this) as (more1 & Hfired1 & Hlen1).
    destruct (IH (call c this).2) as (more & Hfired & Hlen).
    exists (more1 ++ more). simpl. rewrite Hfired, Hfired1, app_assoc.
    split; [done|]. rewrite length_app. simpl. lia.
Qed.

(** X10. After a series of [registerTreeViewDataProvider] calls the provider of an
    id is the one given by the last call for that id, and the provider bound
    before the series when no call was for that id. *)
Theorem registerTreeViewDataProvider_last_wins
    (bindings : list (string * ITreeViewDataProvider)) this id' :
  getTreeViewDataProvider
    (after ((λ b, call_registerTreeViewDataProvider b.1 b.2) <$> bindings) this)
    id'
  = match last (filter (λ b, b.1 = id') bindings) with
    | Some b => Some b.2
    | None => getTreeViewDataProvider this id'
    end.
Proof.
  induction bindings as [|[id'' factory] bindings IH] using rev_ind; [done|].
  rewrite fmap_app, after_app, filter_app. simpl.
  rewrite registerTreeViewDataProvider_run.
  unfold getTreeViewDataProvider in *. simpl. rewrite lookup_insert.
  rewrite filter_cons, filter_nil. simpl. case_decide as Hid.
  - by rewrite last_snoc.
  - by rewrite app_nil_r.
Qed.

Lemma registerView_known loc v this :
  is_Some (_views this !! loc) → is_Some (_views (registerView v this).2 !! loc).
Proof.
  intros Hknown. destruct (registerView_cases v this) as [->|[_ ->]]; [done|].
  simpl. apply lookup_insert_is_Some'. by right.
Qed.

Lemma call_known loc c this :
  is_Some (_views this !! loc) → is_Some (_views (call c this).2 !! loc).
Proof.
  intros Hknown. destruct c as [batch|ids loc'|id' factory|]; simpl.
  - pose proof (for_of_preserves (λ this', is_Some (_views this' !! loc))
                  registerView batch (registerView_known loc) this Hknown).
    by destruct (registerViews_state batch this) as [->|(this' & -> & [->| ->])].
  - destruct (_views this !! loc') as [views|] eqn:Hget.
    + rewrite (deregisterViews_run_Some _ _ _ _ Hget). simpl.
      apply lookup_insert_is_Some'. by right.
    + by rewrite (deregisterViews_run_None _ _ _ Hget).
  - by rewrite registerTreeViewDataProvider_run.
  - done.
Qed.

(** X11. A location that has an array in the map keeps one through every series
    of calls, emptied or not; so [deregisterViews] on it always fires, with
    the views it lists whose id is in [ids]. *)
Theorem known_location_stays_known calls this loc ids :
  is_Some (_views this !! loc) →
  is_Some (_views (after calls this) !! loc) ∧
  fired (deregisterViews ids loc (after calls this)).2
  = fired (after calls this)
    ++ [onViewsDeregistered
          (filter (λ v, id v ∈ ids) (getViews (after calls this) loc))].
Proof.
  intros Hknown.
  assert (is_Some (_views (after calls this) !! loc)) as [views Hget].
  { revert this Hknown. induction calls as [|c calls IH]; intros this Hknown;
      [done|]. simpl. by apply IH, call_known. }
  split; [by exists views|].
  by rewrite (deregisterViews_run_Some _ _ _ _ Hget), (getViews_Some _ _ _ Hget).
Qed.

End ViewsRegistry.

(** ** [ViewLocation.getContributedViewLocation] *)

(** C4, amended. [getContributedViewLocation value] is the static instance
    [Explorer] or [Debug] whose id is [value] when there is one, and undefined
    for every other string, "extensions" among them. *)
Theorem getContributedViewLocation_known value :
  (∀ loc, ViewLocation.getContributedViewLocation value = Some loc
          ↔ (loc = ViewLocation.Explorer ∨ loc = ViewLocation.Debug)
            ∧ ViewLocation.id loc = value) ∧
  (ViewLocation.getContributedViewLocation value = None
   ↔ value ≠ "explorer" ∧ value ≠ "debug").
Proof.
  unfold ViewLocation.getContributedViewLocation. split.
  - intros loc. split.
    + repeat case_bool_decide; intros [= <-]; split; auto.
    + by intros [[-> | ->] <-].
  - split.
    + by repeat case_bool_decide.
    + intros [Hexplorer Hdebug]. by rewrite !bool_decide_eq_false_2.
Qed.

(** C4, as stated, fails at "extensions": the name is the id of the static
    instance [Extensions], and it resolves to nothing. *)
Lemma getContributedViewLocation_extensions :
  ViewLocation.id ViewLocation.Extensions = "extensions" ∧
  ViewLocation.getContributedViewLocation "extensions" = None.
Proof. split; reflexivity. Qed.

(** ** Runs of the registry *)

Local Abbreviation view0 :=
  (view (any := unit) (ContextKeyExpr := unit) (number := unit) tt).
Local Abbreviation registry0 :=
  (initial (any := unit) (ContextKeyExpr := unit) (number := unit)
           (ITreeViewDataProvider := string)).
Local Abbreviation a := (view0 "a" ViewLocation.Explorer).
Local Abbreviation b := (view0 "b" ViewLocation.Explorer).
Local Abbreviation c := (view0 "c" ViewLocation.Debug).
Local Abbreviation a_debug := (view0 "a" ViewLocation.Debug).

(** Two views registered in one call are listed in that order, and one
    notification carries both. *)
Lemma registerViews_appends_witness :
  getViews (registerViews [a; b] registry0).2 ViewLocation.Explorer = [a; b] ∧
  fired (registerViews [a; b] registry0).2 = [onViewsRegistered [a; b]].
Proof.
  destruct (registerViews_appends registry0 [a; b]) as (_ & Hviews & Hfired & _).
  - discriminate.
  - apply (bool_decide_unpack _). vm_compute. exact I.
  - split; [by rewrite Hviews | by rewrite Hfired].
Defined.

(** With "a" registered in the explorer, the batch [b; a; c] throws at [a]:
    [b] has been appended, [a] and [c] have not. *)
Lemma registerViews_duplicate_witness :
  let this := (registerViews [a] registry0).2 in
  (registerViews [b; a; c] this).1 = inl (duplicateId "a" "explorer") ∧
  getViews (registerViews [b; a; c] this).2 ViewLocation.Explorer = [a; b] ∧
  getViews (registerViews [b; a; c] this).2 ViewLocation.Debug = [].
Proof.
  intros this.
  destruct (registerViews_duplicate this [b; a; c] [b] a [c])
    as (pre & offending & post & _ & _ & _ & Hfirst & Herr & Hviews & _).
  - reflexivity.
  - apply (bool_decide_unpack _). vm_compute. exact I.
  - destruct Hfirst as (-> & -> & _).
    { apply (bool_decide_unpack _). vm_compute. exact I. }
    split; [exact Herr|]. split; by rewrite Hviews.
Defined.

(** Registering "a" in the explorer a second time throws and changes
    nothing. *)
Lemma reachable_unique_ids_witness :
  let this := after [call_registerViews [a]] registry0 in
  registerViews [a] this = (inl (duplicateId "a" "explorer"), this).
Proof.
  intros this.
  apply (proj2 (reachable_unique_ids [call_registerViews [a]]) a).
  apply (bool_decide_unpack _). vm_compute. exact I.
Defined.

(** C3, as stated, fails on a location whose views have all been
    deregistered: it has no registered view, and [deregisterViews] fires a
    notification with an empty array. *)
Lemma deregisterViews_emptied_location_fires :
  let this :=
    after [call_registerViews [a_debug];
           call_deregisterViews ["a"] ViewLocation.Debug] registry0 in
  getViews this ViewLocation.Debug = [] ∧
  fired (deregisterViews ["a"] ViewLocation.Debug this).2
  = fired this ++ [onViewsDeregistered []].
Proof. split; vm_compute; reflexivity. Qed.

(** C9, as stated, fails on the empty batch: the call returns, every view of
    the batch is registered, and no notification was fired. *)
Lemma registerViews_empty_returns_silent :
  (registerViews [] registry0).1 = inr tt ∧
  fired (registerViews [] registry0).2 = fired registry0 ∧
  ¬ (fired (registerViews [] registry0).2
     = fired registry0 ++ [onViewsRegistered []]
     ↔ (registerViews [] registry0).1 = inr tt).
Proof.
  split; [reflexivity|]. split; [reflexivity|].
  intros [_ Hfire]. specialize (Hfire eq_refl). discriminate Hfire.
Qed.

(** One view per call, then two in one call: each location lists its views
    in the order of registration. *)
Lemma getViews_after_registerViews_witness :
  getViews (after (call_registerViews <$> [[a]; [c; b]]) registry0)
           ViewLocation.Explorer = [a; b].
Proof.
  rewrite (getViews_after_registerViews [[a]; [c; b]] registry0).
  - reflexivity.
  - apply (bool_decide_unpack _). vm_compute. exact I.
Defined.

(** A view registered in the debug location and deregistered by its id: the
    location lists nothing, and the one notification carries the view. *)
Example deregisterViews_registered_view :
  let this := (registerViews [a_debug] registry0).2 in
  getViews (deregisterViews ["a"] ViewLocation.Debug this).2 ViewLocation.Debug
  = [] ∧
  fired (deregisterViews ["a"] ViewLocation.Debug this).2
  = [onViewsRegistered [a_debug]; onViewsDeregistered [a_debug]].
Proof. split; vm_compute; reflexivity. Qed.

(** Nothing was ever registered in the debug location: [deregisterViews]
    fires nothing. *)
Example deregisterViews_unknown_location :
  deregisterViews ["a"] ViewLocation.Debug registry0 = (inr tt, registry0).
Proof. reflexivity. Qed.

(** With "a" registered in the explorer, the batch [b; a; c] throws at [a]
    after appending [b]; given again, it throws at [b] and changes nothing. *)
Lemma registerViews_retry_witness :
  let this := (registerViews [a] registry0).2 in
  let this1 := (registerViews [b; a; c] this).2 in
  registerViews [b; a; c] this1 = (inl (duplicateId "b" "explorer"), this1).
Proof.
  intros this this1.
  apply (registerViews_retry this b [] a [c]);
    apply (bool_decide_unpack _); vm_compute; exact I.
Defined.

(** With only "a" in the explorer, deregistering "x" there changes no array
    and fires an empty array. *)
Lemma deregisterViews_no_match_witness :
  let this := (registerViews [a] registry0).2 in
  _views (deregisterViews ["x"] ViewLocation.Explorer this).2 = _views this ∧
  fired (deregisterViews ["x"] ViewLocation.Explorer this).2
  = fired this ++ [onViewsDeregistered []].
Proof.
  intros this.
  destruct (deregisterViews_no_match this ["x"] ViewLocation.Explorer)
    as (_ & Hviews & Hfired).
  - assert (getViews this ViewLocation.Explorer = [a]) as -> by reflexivity.
    intros v ->%list_elem_of_singleton.
    apply (bool_decide_unpack _). vm_compute. exact I.
  - split; [exact Hviews|]. rewrite Hfired. reflexivity.
Defined.

(** With "a" in the explorer, registering [b; c] and deregistering in the
    explorer the id that [b] brought there leaves the explorer with "a" alone
    and the debug location with [c]. *)
Lemma registerViews_deregisterViews_witness :
  let this := (registerViews [a] registry0).2 in
  let this2 :=
    (deregisterViews ["b"] ViewLocation.Explorer (registerViews [b; c] this).2).2
  in
  getViews this2 ViewLocation.Explorer = [a] ∧
  getViews this2 ViewLocation.Debug = [c] ∧
  fired this2
  = [onViewsRegistered [a]; onViewsRegistered [b; c]; onViewsDeregistered [b]].
Proof.
  intros this this2.
  destruct (registerViews_deregisterViews this [b; c] ViewLocation.Explorer)
    as (Hloc & Hother & Hfired).
  - apply (bool_decide_unpack _). vm_compute. exact I.
  - split; [etrans; [exact Hloc | reflexivity]|]. split.
    + etrans; [apply (Hother ViewLocation.Debug); discriminate | reflexivity].
    + etrans; [apply Hfired; discriminate | reflexivity].
Defined.

(** With [a; b] in the explorer, deregistering "a" there lets [a] be
    registered again, now after [b]. *)
Lemma deregisterViews_frees_ids_witness :
  let this := (registerViews [a; b] registry0).2 in
  let this1 := (deregisterViews ["a"] ViewLocation.Explorer this).2 in
  (registerViews [a] this1).1 = inr tt ∧
  getViews (registerViews [a] this1).2 ViewLocation.Explorer = [b; a].
Proof.
  intros this this1.
  destruct (deregisterViews_frees_ids this ["a"] a) as (Hret & Hviews).
  - apply (bool_decide_unpack _). vm_compute. exact I.
  - split; [exact Hret | exact Hviews].
Defined.

(** The debug location, once a view was registered there, is still in the map
    after that view was deregistered, and a further deregistration fires. *)
Lemma known_location_stays_known_witness :
  let this := (registerViews [a_debug] registry0).2 in
  let this1 := after [call_deregisterViews ["a"] ViewLocation.Debug] this in
  is_Some (_views this1 !! ViewLocation.Debug) ∧
  fired (deregisterViews ["a"] ViewLocation.Debug this1).2
  = fired this1 ++ [onViewsDeregistered []].
Proof.
  intros this this1.
  apply (known_location_stays_known
           [call_deregisterViews ["a"] ViewLocation.Debug] this
           ViewLocation.Debug ["a"]).
  apply (bool_decide_unpack _). vm_compute. exact I.
Defined.
